(** * AVENIS A1 driver (src/A1/main.cpp): a shallow embedding of the
    distributed solve pipeline of [Diffusion<dim>], of [Setup_System],
    of [OutLogger] and of the option handling and outer loop of [main].

    PETSc objects, options and return codes are modelled explicitly:
    every PETSc call of the source is an event of the trace, its return
    code comes from an oracle [rc] of the environment, and its effect on
    the objects of the program is applied when it returns 0.  The
    methods of [Diffusion] whose bodies are not in this file
    ([Assemble_Globals], [Calculate_Internal_Unknowns], [Refine_Grid],
    [Count_Globals], [vtk_visualizer]) appear as events of the trace. *)

From Stdlib Require Import ZArith QArith String List Lia.
From stdpp Require Import base list strings.
Import ListNotations.

(** ** Data model *)

(** PETSc objects handled by [Solve_Linear_Systam]. *)
Inductive Obj := OMat | ORHS | OSol | OExact | OX | OKSP | OFrom | OTo | OScatter.

#[global] Instance Obj_eq_dec : EqDecision Obj.
Proof. solve_decision. Defined.

Inductive MatOption := MAT_ROW_ORIENTED | MAT_SPD.

(** The PETSc calls of the source, with the arguments that matter. *)
Inductive Call :=
| MatCreate
| MatSetType (t : string)
| MatSetSizes (nloc nglob : Z)
| MatMPIAIJSetPreallocation
| MatGetOwnershipRange
| MatSetOption (o : MatOption) (b : bool)
| VecCreateMPI (o : Obj) (nloc nglob : Z)
| VecSetOption (o : Obj)
| VecDuplicate (src dst : Obj)
| MatAssemblyBegin
| MatAssemblyEnd
| VecAssemblyBegin (o : Obj)
| VecAssemblyEnd (o : Obj)
| VecNorm (o : Obj)
| KSPCreate
| KSPSetTolerances (rtol : Q)
| KSPSetOperators
| KSPSetType (t : string)
| KSPSetFromOptions
| KSPGetPC
| PCSetFromOptions
| PCSetType (t : string)
| PCGAMGSetType (t : string)
| PCGAMGSetNSmooths (k : Z)
| KSPSolve
| KSPGetIterationNumber
| KSPGetConvergedReason
| VecAXPY (y : Obj) (alpha : Z) (x : Obj)
| VecCreateSeq (n : Z)
| ISCreateGeneral (o : Obj) (n : Z) (idx : list Z)
| VecScatterCreate
| VecScatterBegin
| VecScatterEnd
| VecGetArray (o : Obj)
| MatDestroy
| VecDestroy (o : Obj).

(** Type names of PETSc used by the source. *)
Definition MATMPIAIJ : string := "mpiaij".
Definition KSPCG : string := "cg".
Definition PCGAMG : string := "gamg".
Definition PCGAMGAGG : string := "agg".

(** Events of a run: PETSc calls and calls of the other methods. *)
Inductive Ev :=
| EvPetsc (c : Call)
| EvAssemble_Globals
| EvCalculate_Internal_Unknowns (local : list Q)
| EvRefine_Grid (refinement : Z)
| EvCount_Globals.

(** Lines written to the [Execution_Time] log (time stamps abstracted). *)
Inductive LogLine :=
| LEnteringAssembly
| LFinishedAssembly
| LEnteringSolver
| LConvergedReason (r : Z)
| LNumIterations (n : Z)
| LFinishedSolver
| LEnteringLocalSolver
| LFinishedLocalSolver
| LEnteringCounter (rank cycle : Z)
| LExitedCounter (rank cycle : Z).

(** Lines written to [std::cout]. *)
Inductive OutLine :=
| OutTimings
| OutRefineEnter (rank cycle : Z)
| OutRefineExit (rank cycle : Z)
| OutHelp
| OutHey
| OutThreads (n : Z)
| OutText (s : string).

(** The PETSc options database, values already parsed. *)
Inductive OptVal := OStr (s : string) | OReal (q : Q) | OInt (z : Z).
Definition OptDB := list (string * OptVal).

Fixpoint opt_lookup (db : OptDB) (k : string) : option OptVal :=
  match db with
  | [] => None
  | (k', v) :: db' => if String.eqb k k' then Some v else opt_lookup db' k
  end.

Definition opt_string (db : OptDB) (k : string) : option string :=
  match opt_lookup db k with Some (OStr s) => Some s | _ => None end.
Definition opt_real (db : OptDB) (k : string) : option Q :=
  match opt_lookup db k with Some (OReal q) => Some q | _ => None end.
Definition opt_int (db : OptDB) (k : string) : option Z :=
  match opt_lookup db k with Some (OInt z) => Some z | _ => None end.

(** Configuration of the KSP object and of its PC. *)
Record KspCfg := mkKspCfg {
  ksp_type : option string;
  ksp_rtol : Q;
  pc_type : option string;
  gamg_type : option string;
  gamg_nsmooths : option Z
}.

(** [KSPCreate]: no type yet, PETSc's default relative tolerance 1e-5. *)
Definition ksp_default : KspCfg := mkKspCfg None (1 # 100000) None None None.

(** [KSPSetFromOptions]: [-ksp_type] and [-ksp_rtol] replace the current
    values (GMRES when no type was set), then the PC reads its options. *)
Definition pc_set_from_options (db : OptDB) (c : KspCfg) : KspCfg :=
  match opt_string db "-pc_type" with
  | Some t => mkKspCfg (ksp_type c) (ksp_rtol c) (Some t) (gamg_type c) (gamg_nsmooths c)
  | None => c
  end.

Definition ksp_set_from_options (db : OptDB) (c : KspCfg) : KspCfg :=
  let t := match opt_string db "-ksp_type" with
           | Some t => Some t
           | None => match ksp_type c with None => Some "gmres"%string | s => s end
           end in
  let r := match opt_real db "-ksp_rtol" with Some q => q | None => ksp_rtol c end in
  pc_set_from_options db (mkKspCfg t r (pc_type c) (gamg_type c) (gamg_nsmooths c)).

(** State of one rank. *)
Record St := mkSt {
  trace : list Ev;
  exec_log : list LogLine;
  out : list OutLine;
  live : list Obj;
  mat_spd : bool;
  cfg : KspCfg;
  sol : list Q;
  x : list Q;
  is_from : list Z;
  is_to : list Z;
  scat : bool
}.

Definition st0 : St := mkSt [] [] [] [] false ksp_default [] [] [] [] false.

Definition set_trace v s := mkSt v (exec_log s) (out s) (live s) (mat_spd s) (cfg s) (sol s) (x s) (is_from s) (is_to s) (scat s).
Definition set_log v s := mkSt (trace s) v (out s) (live s) (mat_spd s) (cfg s) (sol s) (x s) (is_from s) (is_to s) (scat s).
Definition set_out v s := mkSt (trace s) (exec_log s) v (live s) (mat_spd s) (cfg s) (sol s) (x s) (is_from s) (is_to s) (scat s).
Definition set_live v s := mkSt (trace s) (exec_log s) (out s) v (mat_spd s) (cfg s) (sol s) (x s) (is_from s) (is_to s) (scat s).
Definition set_spd v s := mkSt (trace s) (exec_log s) (out s) (live s) v (cfg s) (sol s) (x s) (is_from s) (is_to s) (scat s).
Definition set_cfg v s := mkSt (trace s) (exec_log s) (out s) (live s) (mat_spd s) v (sol s) (x s) (is_from s) (is_to s) (scat s).
Definition set_sol v s := mkSt (trace s) (exec_log s) (out s) (live s) (mat_spd s) (cfg s) v (x s) (is_from s) (is_to s) (scat s).
Definition set_x v s := mkSt (trace s) (exec_log s) (out s) (live s) (mat_spd s) (cfg s) (sol s) v (is_from s) (is_to s) (scat s).
Definition set_is_from v s := mkSt (trace s) (exec_log s) (out s) (live s) (mat_spd s) (cfg s) (sol s) (x s) v (is_to s) (scat s).
Definition set_is_to v s := mkSt (trace s) (exec_log s) (out s) (live s) (mat_spd s) (cfg s) (sol s) (x s) (is_from s) v (scat s).
Definition set_scat v s := mkSt (trace s) (exec_log s) (out s) (live s) (mat_spd s) (cfg s) (sol s) (x s) (is_from s) (is_to s) v.

(** ** The state and error monad: [Ret e] is an early [return e]. *)
Inductive Res (A : Type) := Ok (a : A) | Ret (code : Z).
Arguments Ok {A} a.
Arguments Ret {A} code.

Definition M (A : Type) : Type := St -> Res A * St.

#[global] Instance M_ret : MRet M := fun A a s => (Ok a, s).
#[global] Instance M_bind : MBind M := fun A B k m s =>
  match m s with
  | (Ok a, s') => k a s'
  | (Ret e, s') => (Ret e, s')
  end.

Definition skip : M unit := mret tt.
Definition emit (e : Ev) : M unit := fun s => (Ok tt, set_trace (trace s ++ [e]) s).
Definition write_log (l : LogLine) : M unit := fun s => (Ok tt, set_log (exec_log s ++ [l]) s).
Definition write_out (o : OutLine) : M unit := fun s => (Ok tt, set_out (out s ++ [o]) s).
Definition get_x : M (list Q) := fun s => (Ok (x s), s).

(** [CHKERRQ(e)]: return [e] from the enclosing function when it is not 0. *)
Definition CHKERRQ (e : Z) : M unit := fun s => if (e =? 0)%Z then (Ok tt, s) else (Ret e, s).

(** ** Environment of one rank in one call of [Solve_Linear_Systam] *)
Record Env := mkEnv {
  comm_rank : Z;
  comm_size : Z;
  refn_cycle : Z;
  num_global_DOFs_on_this_rank : Z;
  num_global_DOFs_on_all_ranks : Z;
  num_local_DOFs_on_this_rank : Z;
  scatter_from : list Z;
  scatter_to : list Z;
  options : OptDB;
  rc : Call -> Z;                 (** return code of each PETSc call *)
  ksp_solution : list Q;          (** global view of what [KSPSolve] computes *)
  ksp_reason : Z;                 (** [KSPConvergedReason] it reports *)
  ksp_iters : Z                   (** iteration count it reports *)
}.

(** [VecScatterBegin/End] with [INSERT_VALUES, SCATTER_FORWARD]:
    [y[to[i]] = v[from[i]]] for each [i], in order. *)
Fixpoint scatter_insert (v : list Q) (from to : list Z) (y : list Q) : list Q :=
  match from, to with
  | f :: fs, t :: ts =>
      scatter_insert v fs ts (<[Z.to_nat t := default 0%Q (v !! Z.to_nat f)]> y)
  | _, _ => y
  end.

(** The [PCGAMGSet*] calls act only on a PC of type [PCGAMG]. *)
Definition is_gamg (c : KspCfg) : bool :=
  match pc_type c with Some t => String.eqb t PCGAMG | None => false end.

Section Solver.
Variable env : Env.

(** Effect of a PETSc call that returned 0. *)
Definition effect (c : Call) (s : St) : St :=
  match c with
  | MatCreate => set_live (OMat :: live s) s
  | VecCreateMPI o _ _ => set_live (o :: live s) s
  | VecDuplicate _ o => set_live (o :: live s) s
  | MatSetOption MAT_SPD b => set_spd b s
  | KSPCreate => set_live (OKSP :: live s) (set_cfg ksp_default s)
  | KSPSetTolerances q =>
      let c0 := cfg s in
      set_cfg (mkKspCfg (ksp_type c0) q (pc_type c0) (gamg_type c0) (gamg_nsmooths c0)) s
  | KSPSetType t =>
      let c0 := cfg s in
      set_cfg (mkKspCfg (Some t) (ksp_rtol c0) (pc_type c0) (gamg_type c0) (gamg_nsmooths c0)) s
  | KSPSetFromOptions => set_cfg (ksp_set_from_options (options env) (cfg s)) s
  | PCSetFromOptions => set_cfg (pc_set_from_options (options env) (cfg s)) s
  | PCSetType t =>
      let c0 := cfg s in
      set_cfg (mkKspCfg (ksp_type c0) (ksp_rtol c0) (Some t) (gamg_type c0) (gamg_nsmooths c0)) s
  | PCGAMGSetType t =>
      let c0 := cfg s in
      set_cfg (if is_gamg c0
               then mkKspCfg (ksp_type c0) (ksp_rtol c0) (pc_type c0) (Some t) (gamg_nsmooths c0)
               else c0) s
  | PCGAMGSetNSmooths k =>
      let c0 := cfg s in
      set_cfg (if is_gamg c0
               then mkKspCfg (ksp_type c0) (ksp_rtol c0) (pc_type c0) (gamg_type c0) (Some k)
               else c0) s
  | KSPSolve => set_sol (ksp_solution env) s
  | VecCreateSeq n => set_live (OX :: live s) (set_x (repeat 0%Q (Z.to_nat n)) s)
  | ISCreateGeneral OFrom n idx => set_live (OFrom :: live s) (set_is_from (take (Z.to_nat n) idx) s)
  | ISCreateGeneral OTo n idx => set_live (OTo :: live s) (set_is_to (take (Z.to_nat n) idx) s)
  | VecScatterCreate => set_live (OScatter :: live s) (set_scat true s)
  | VecScatterEnd =>
      if scat s then set_x (scatter_insert (sol s) (is_from s) (is_to s) (x s)) s else s
  | MatDestroy => set_live (filter (fun o => o <> OMat) (live s)) s
  | VecDestroy o => set_live (filter (fun o' => o' <> o) (live s)) s
  | _ => s
  end.

(** A PETSc call: recorded, effect applied on success, code returned. *)
Definition petsc (c : Call) : M Z := fun s =>
  let e := rc env c in
  let s1 := set_trace (trace s ++ [EvPetsc c]) s in
  (Ok e, if (e =? 0)%Z then effect c s1 else s1).

Definition on_rank0 (m : M unit) : M unit :=
  if (comm_rank env =? 0)%Z then m else skip.

(** [Diffusion<dim>::Solve_Linear_Systam], lines 92-230. *)
Definition Solve_Linear_Systam : M Z :=
  petsc MatCreate ;;
  petsc (MatSetType MATMPIAIJ) ;;
  petsc (MatSetSizes (num_global_DOFs_on_this_rank env) (num_global_DOFs_on_all_ranks env)) ;;
  petsc MatMPIAIJSetPreallocation ;;
  petsc MatGetOwnershipRange ;;
  petsc (MatSetOption MAT_ROW_ORIENTED false) ;;
  petsc (MatSetOption MAT_SPD true) ;;
  petsc (VecCreateMPI ORHS (num_global_DOFs_on_this_rank env) (num_global_DOFs_on_all_ranks env)) ;;
  petsc (VecSetOption ORHS) ;;
  petsc (VecDuplicate ORHS OSol) ;;
  petsc (VecDuplicate ORHS OExact) ;;
  on_rank0 (write_log LEnteringAssembly) ;;
  emit EvAssemble_Globals ;;
  on_rank0 (write_log LFinishedAssembly) ;;
  on_rank0 (write_log LEnteringSolver) ;;
  assem_error ← petsc MatAssemblyBegin ;
  CHKERRQ assem_error ;;
  assem_error ← petsc MatAssemblyEnd ;
  CHKERRQ assem_error ;;
  petsc (VecAssemblyBegin ORHS) ;;
  petsc (VecAssemblyEnd ORHS) ;;
  petsc (VecNorm ORHS) ;;
  petsc (VecAssemblyBegin OExact) ;;
  petsc (VecAssemblyEnd OExact) ;;
  petsc KSPCreate ;;
  petsc (KSPSetTolerances (1 # 100000000)) ;;
  petsc KSPSetOperators ;;
  petsc (KSPSetType KSPCG) ;;
  petsc KSPSetFromOptions ;;
  petsc KSPGetPC ;;
  petsc PCSetFromOptions ;;
  petsc (PCSetType PCGAMG) ;;
  petsc (PCGAMGSetType PCGAMGAGG) ;;
  petsc (PCGAMGSetNSmooths 1) ;;
  petsc KSPSolve ;;
  petsc KSPGetIterationNumber ;;
  petsc KSPGetConvergedReason ;;
  on_rank0 (write_log (LConvergedReason (ksp_reason env)) ;;
            write_log (LNumIterations (ksp_iters env))) ;;
  petsc (VecNorm OSol) ;;
  on_rank0 (write_log LFinishedSolver) ;;
  petsc (VecAXPY OExact (-1) OSol) ;;
  petsc (VecNorm OExact) ;;
  petsc (VecCreateSeq (num_local_DOFs_on_this_rank env)) ;;
  petsc (ISCreateGeneral OFrom (num_local_DOFs_on_this_rank env) (scatter_from env)) ;;
  petsc (ISCreateGeneral OTo (num_local_DOFs_on_this_rank env) (scatter_to env)) ;;
  petsc VecScatterCreate ;;
  petsc VecScatterBegin ;;
  petsc VecScatterEnd ;;
  petsc (VecGetArray OX) ;;
  local_solution_vec_p ← get_x ;
  on_rank0 (write_log LEnteringLocalSolver) ;;
  emit (EvCalculate_Internal_Unknowns local_solution_vec_p) ;;
  on_rank0 (write_log LFinishedLocalSolver) ;;
  on_rank0 (write_out OutTimings) ;;
  petsc MatDestroy ;;
  petsc (VecDestroy ORHS) ;;
  petsc (VecDestroy OExact) ;;
  petsc (VecDestroy OSol) ;;
  petsc (VecDestroy OX) ;;
  mret 0%Z.

(** [Diffusion<dim>::Setup_System], lines 232-270. *)
Definition Setup_System (refinement : Z) : M unit :=
  (if (comm_rank env =? comm_size env)%Z
   then write_out (OutRefineEnter (comm_rank env) (refn_cycle env)) else skip) ;;
  emit (EvRefine_Grid refinement) ;;
  (if (comm_rank env =? comm_size env)%Z
   then write_out (OutRefineExit (comm_rank env) (refn_cycle env)) else skip) ;;
  on_rank0 (write_log (LEnteringCounter (comm_rank env) (refn_cycle env))) ;;
  emit EvCount_Globals ;;
  on_rank0 (write_log (LExitedCounter (comm_rank env) (refn_cycle env))).

End Solver.

(** [Diffusion<dim>::OutLogger], lines 54-63: the text written to [logger]. *)
Definition OutLogger (comm_rank : Z) (log : string) (insert_eol : bool) : list string :=
  if (comm_rank =? 0)%Z
  then (if insert_eol then [log; String (Ascii.ascii_of_nat 10) EmptyString] else [log])
  else [].

(** ** [main], lines 345-460 *)
Module Main.

(** [PetscOptionsGetInt]: the variable keeps its value when the option is absent. *)
Definition PetscOptionsGetInt (db : OptDB) (name : string) (cur : Z) : Z * bool :=
  match opt_int db name with Some v => (v, true) | None => (cur, false) end.

(** [PetscOptionsGetString] with a buffer of [len] chars: at most [len-1]
    characters are copied; the buffer is unchanged when the option is absent. *)
Definition PetscOptionsGetString (db : OptDB) (name : string) (cur : string) (len : nat)
  : string * bool :=
  match opt_string db name with
  | Some v => (substring 0 (len - 1) v, true)
  | None => (cur, false)
  end.

(** Calls made on the solver object by the outer loop. *)
Inductive MainEv :=
| MConstruct (p1 : Z) (adaptive : Z)
| MSetup (h1 : Z)
| MSolve
| MVisualize.

(** Conversion [(unsigned)] of a 32-bit [int]. *)
Definition to_unsigned (z : Z) : Z := z mod 2 ^ 32.

(** [for (unsigned u = lo; u < hi; ++u) body(u)]; [fuel] counts the
    iterations left, [hi - lo] of them. *)
Fixpoint for_loop (fuel : nat) (u hi : Z) (body : Z -> list MainEv) : list MainEv :=
  match fuel with
  | O => []
  | S f => if (u <? hi)%Z then body u ++ for_loop f (u + 1) hi body else []
  end.

Definition for_range (lo hi : Z) (body : Z -> list MainEv) : list MainEv :=
  for_loop (Z.to_nat (hi - lo)) lo hi body.

(** Lines 447-456: the return value of [Solve_Linear_Systam] is discarded. *)
Definition outer_loop (p_1 p_2 h_1 h_2 Adaptive : Z) : list MainEv :=
  for_range (to_unsigned p_1) (to_unsigned p_2) (fun p1 =>
    MConstruct p1 Adaptive ::
    for_range (to_unsigned h_1) (to_unsigned h_2) (fun h1 =>
      [MSetup h1; MSolve; MVisualize])).

(** Lines 415-436: the check of [-face_basis]; returns the buffer
    [face_basis_type] and the lines printed. *)
Definition face_basis_check (rank : Z) (db : OptDB) (number_of_threads : Z)
  : string * list OutLine :=
  let '(face_basis_type, face_basis_option_flag) :=
    PetscOptionsGetString db "-face_basis" "legendre" 100 in
  (face_basis_type,
   if face_basis_option_flag then
     if String.eqb face_basis_type "lagrange" then []
     else if String.eqb face_basis_type "legendre" then []
     else if (rank =? 0)%Z then [OutHey; OutThreads number_of_threads] else []
   else []).

Record MainRun := mkMainRun {
  main_face_basis : string;
  main_out : list OutLine;
  main_trace : list MainEv
}.

(** [main] on rank [rank] with options [db]; [p_1 .. h_2] are the values
    the uninitialised [int] variables happen to hold. *)
Definition main_model (rank : Z) (db : OptDB) (p_1 p_2 h_1 h_2 : Z) : MainRun :=
  let number_of_threads := 1%Z in
  let help := if (rank =? 0)%Z then [OutHelp] else [] in
  let '(p_1, _) := PetscOptionsGetInt db "-p_0" p_1 in
  let '(p_2, _) := PetscOptionsGetInt db "-p_n" p_2 in
  let '(h_1, _) := PetscOptionsGetInt db "-h_0" h_1 in
  let '(h_2, _) := PetscOptionsGetInt db "-h_n" h_2 in
  let '(Adaptive, _) := PetscOptionsGetInt db "-amr" 0 in
  let '(face_basis_type, face_out) := face_basis_check rank db number_of_threads in
  mkMainRun face_basis_type (help ++ face_out) (outer_loop p_1 p_2 h_1 h_2 Adaptive).

End Main.

(** The environment [e] in which every PETSc call returns 0. *)
Definition all_ok (e : Env) : Env :=
  mkEnv (comm_rank e) (comm_size e) (refn_cycle e)
        (num_global_DOFs_on_this_rank e) (num_global_DOFs_on_all_ranks e)
        (num_local_DOFs_on_this_rank e) (scatter_from e) (scatter_to e)
        (options e) (fun _ => 0%Z) (ksp_solution e) (ksp_reason e) (ksp_iters e).


(** The four global system objects of [Solve_Linear_Systam]. *)
Definition system_objects : list Obj := [OMat; ORHS; OSol; OExact].


(** The events of a call of [Solve_Linear_Systam] that gets past the
    assembly checks; [a] is the array given to the post-solve. *)
Definition solve_events (e : Env) (a : list Q) : list Ev :=
  map EvPetsc
    [MatCreate; MatSetType MATMPIAIJ;
     MatSetSizes (num_global_DOFs_on_this_rank e) (num_global_DOFs_on_all_ranks e);
     MatMPIAIJSetPreallocation; MatGetOwnershipRange;
     MatSetOption MAT_ROW_ORIENTED false; MatSetOption MAT_SPD true;
     VecCreateMPI ORHS (num_global_DOFs_on_this_rank e) (num_global_DOFs_on_all_ranks e);
     VecSetOption ORHS; VecDuplicate ORHS OSol; VecDuplicate ORHS OExact]
  ++ [EvAssemble_Globals]
  ++ map EvPetsc
    [MatAssemblyBegin; MatAssemblyEnd;
     VecAssemblyBegin ORHS; VecAssemblyEnd ORHS; VecNorm ORHS;
     VecAssemblyBegin OExact; VecAssemblyEnd OExact;
     KSPCreate; KSPSetTolerances (1 # 100000000); KSPSetOperators; KSPSetType KSPCG;
     KSPSetFromOptions; KSPGetPC; PCSetFromOptions; PCSetType PCGAMG;
     PCGAMGSetType PCGAMGAGG; PCGAMGSetNSmooths 1;
     KSPSolve; KSPGetIterationNumber; KSPGetConvergedReason;
     VecNorm OSol; VecAXPY OExact (-1) OSol; VecNorm OExact;
     VecCreateSeq (num_local_DOFs_on_this_rank e);
     ISCreateGeneral OFrom (num_local_DOFs_on_this_rank e) (scatter_from e);
     ISCreateGeneral OTo (num_local_DOFs_on_this_rank e) (scatter_to e);
     VecScatterCreate; VecScatterBegin; VecScatterEnd; VecGetArray OX]
  ++ [EvCalculate_Internal_Unknowns a]
  ++ map EvPetsc [MatDestroy; VecDestroy ORHS; VecDestroy OExact; VecDestroy OSol; VecDestroy OX].

(** The lines rank 0 writes to [Execution_Time] in such a call. *)
Definition solve_log (reason iters : Z) : list LogLine :=
  [LEnteringAssembly; LFinishedAssembly; LEnteringSolver;
   LConvergedReason reason; LNumIterations iters; LFinishedSolver;
   LEnteringLocalSolver; LFinishedLocalSolver].

(** [l] on rank 0, nothing on the other ranks. *)
Definition if_rank0 (e : Env) {A} (l : list A) : list A :=
  if (comm_rank e =? 0)%Z then l else [].

(** Concrete inputs: rank [r] of two, 5 global and 2 local DOFs,
    [scatter_from = [4; 0]], [scatter_to = [1; 0]], options [db], return
    codes [rcf], a solver that stops with reason -3 after 10000 iterations. *)
Definition ex_env (r : Z) (db : OptDB) (rcf : Call -> Z) : Env :=
  mkEnv r 2 0 3 5 2 [4; 0]%Z [1; 0]%Z db rcf [10; 11; 12; 13; 14]%Q (-3) 10000.

Definition rc_all_ok : Call -> Z := fun _ => 0%Z.


(** [MatAssemblyBegin] fails with code 73. *)
Definition rc_assembly_fails : Call -> Z :=
  fun c => match c with MatAssemblyBegin => 73%Z | _ => 0%Z end.

(** The integers of the half-open range [[a, b)], in increasing order. *)
Definition zrange (a b : Z) : list Z :=
  map (fun k => (a + Z.of_nat k)%Z) (seq 0 (Z.to_nat (b - a))).

(** ** [Tokenize] (lines 65-84) *)

(** [std::string::npos] for a 64-bit [size_t]. *)
Definition npos : Z := 2 ^ 64 - 1.
(** Subtraction of two [size_t] values, wrapping around. *)
Definition size_t_sub (a b : Z) : Z := (a - b) mod 2 ^ 64.
(** [c] occurs in the delimiter string [d] ([char_traits::find]). *)
Definition in_delims (c : Ascii.ascii) (d : list Ascii.ascii) : bool := existsb (Ascii.eqb c) d.

(** Index of the first character of [l] satisfying [p], [l] starting at
    index [i] of the string; [npos] when there is none. *)
Fixpoint find_from (p : Ascii.ascii -> bool) (l : list Ascii.ascii) (i : Z) : Z :=
  match l with
  | [] => npos
  | c :: l' => if p c then i else find_from p l' (i + 1)
  end.

(** [s.find_first_of(d, pos)] and [s.find_first_not_of(d, pos)]: [npos]
    when [pos >= s.size()]. *)
Definition find_first_of (s d : list Ascii.ascii) (pos : Z) : Z :=
  if (pos <? Z.of_nat (length s))%Z
  then find_from (fun c => in_delims c d) (drop (Z.to_nat pos) s) pos else npos.

Definition find_first_not_of (s d : list Ascii.ascii) (pos : Z) : Z :=
  if (pos <? Z.of_nat (length s))%Z
  then find_from (fun c => negb (in_delims c d)) (drop (Z.to_nat pos) s) pos else npos.

(** [s.substr(pos, n)]: throws [std::out_of_range] ([None]) when
    [pos > s.size()]; otherwise at most [n] characters from [pos]. *)
Definition substr (s : list Ascii.ascii) (pos n : Z) : option (list Ascii.ascii) :=
  if (Z.of_nat (length s) <? pos)%Z then None
  else Some (take (Z.to_nat (Z.min n (Z.of_nat (length s) - pos))) (drop (Z.to_nat pos) s)).

(** The [while] loop of [Tokenize]; [None] is an exception of [substr],
    or the iteration bound [fuel] running out. *)
Fixpoint Tokenize_loop (fuel : nat) (str_in delimiters : list Ascii.ascii) (lastPos pos : Z)
  (tokens : list (list Ascii.ascii)) : option (list (list Ascii.ascii)) :=
  match fuel with
  | O => None
  | S f =>
      if negb (npos =? pos)%Z || negb (npos =? lastPos)%Z then
        match substr str_in lastPos (size_t_sub pos lastPos) with
        | None => None
        | Some t =>
            let tokens := tokens ++ [t] in
            let lastPos := find_first_not_of str_in delimiters pos in
            let pos := find_first_of str_in delimiters lastPos in
            Tokenize_loop f str_in delimiters lastPos pos tokens
        end
      else Some tokens
  end.

(** [Tokenize], lines 71-84: [std::string] is a list of characters, the
    vector [tokens] is passed in and returned.  The loop runs at most
    [str_in.size() + 1] times: each iteration consumes at least one
    character. *)
Definition Tokenize (str_in : list Ascii.ascii) (tokens : list (list Ascii.ascii))
  (delimiters : list Ascii.ascii) : option (list (list Ascii.ascii)) :=
  let lastPos := find_first_not_of str_in delimiters 0 in
  let pos := find_first_of str_in delimiters lastPos in
  Tokenize_loop (S (length str_in)) str_in delimiters lastPos pos tokens.

(** Reference splitting: the maximal runs of characters of [l] not in [d],
    in order. *)
Fixpoint nondelim_runs (d l : list Ascii.ascii) : list (list Ascii.ascii) :=
  match l with
  | [] => []
  | c :: l' =>
      if in_delims c d then nondelim_runs d l'
      else match l' with
           | c2 :: _ =>
               if in_delims c2 d then [c] :: nondelim_runs d l'
               else match nondelim_runs d l' with
                    | w :: ws => (c :: w) :: ws
                    | [] => [[c]]
                    end
           | [] => [[c]]
           end
  end.

(** The words [ws] joined with the separator [sep]. *)
Fixpoint join_with (sep : Ascii.ascii) (ws : list (list Ascii.ascii)) : list Ascii.ascii :=
  match ws with
  | [] => []
  | [w] => w
  | w :: ws' => w ++ sep :: join_with sep ws'
  end.

(** The default argument [delimiters = " "] of [Tokenize]. *)
Definition default_delimiters : list Ascii.ascii := list_ascii_of_string " ".

(** The events of a call of [Solve_Linear_Systam] up to its first
    assembly check. *)
Definition pre_assembly_events (e : Env) : list Ev :=
  map EvPetsc
    [MatCreate; MatSetType MATMPIAIJ;
     MatSetSizes (num_global_DOFs_on_this_rank e) (num_global_DOFs_on_all_ranks e);
     MatMPIAIJSetPreallocation; MatGetOwnershipRange;
     MatSetOption MAT_ROW_ORIENTED false; MatSetOption MAT_SPD true;
     VecCreateMPI ORHS (num_global_DOFs_on_this_rank e) (num_global_DOFs_on_all_ranks e);
     VecSetOption ORHS; VecDuplicate ORHS OSol; VecDuplicate ORHS OExact]
  ++ [EvAssemble_Globals].

(** ** Symbolic execution of the monadic code *)

Section Exec.
Variable env : Env.

Lemma effect_trace c s : trace (effect env c s) = trace s.
Proof. destruct c; cbn; repeat case_match; reflexivity. Qed.
Lemma effect_log c s : exec_log (effect env c s) = exec_log s.
Proof. destruct c; cbn; repeat case_match; reflexivity. Qed.
Lemma effect_out c s : out (effect env c s) = out s.
Proof. destruct c; cbn; repeat case_match; reflexivity. Qed.

Lemma bind_petsc {B} c (k : Z -> M B) s :
  (petsc env c ≫= k) s = k (rc env c) (snd (petsc env c s)).
Proof. reflexivity. Qed.

Lemma bind_emit {B} ev (k : unit -> M B) s :
  (emit ev ≫= k) s = k tt (snd (emit ev s)).
Proof. reflexivity. Qed.

Lemma bind_get_x {B} (k : list Q -> M B) s : (get_x ≫= k) s = k (x s) s.
Proof. reflexivity. Qed.

Lemma bind_on_rank0 {B} m (k : unit -> M B) s :
  (forall s0, fst (m s0) = Ok tt) ->
  (on_rank0 env m ≫= k) s = k tt (snd (on_rank0 env m s)).
Proof.
  intros Hm. unfold mbind, M_bind, on_rank0.
  destruct (comm_rank env =? 0)%Z; [|reflexivity].
  specialize (Hm s). destruct (m s) as [[[]|e] s']; cbn in *; congruence.
Qed.

Lemma bind_CHKERRQ {B} e (k : unit -> M B) s :
  (CHKERRQ e ≫= k) s = if (e =? 0)%Z then k tt s else (Ret e, s).
Proof. unfold mbind, M_bind, CHKERRQ. destruct (e =? 0)%Z; reflexivity. Qed.

Lemma ret_eq {A} (a : A) s : (mret a : M A) s = (Ok a, s).
Proof. reflexivity. Qed.

Lemma petsc_trace c s : trace (snd (petsc env c s)) = trace s ++ [EvPetsc c].
Proof. unfold petsc; cbn. case_match; [rewrite effect_trace|]; reflexivity. Qed.
Lemma petsc_log c s : exec_log (snd (petsc env c s)) = exec_log s.
Proof. unfold petsc; cbn. case_match; [rewrite effect_log|]; reflexivity. Qed.
Lemma petsc_out c s : out (snd (petsc env c s)) = out s.
Proof. unfold petsc; cbn. case_match; [rewrite effect_out|]; reflexivity. Qed.

Lemma emit_trace ev s : trace (snd (emit ev s)) = trace s ++ [ev].
Proof. reflexivity. Qed.
Lemma emit_log ev s : exec_log (snd (emit ev s)) = exec_log s.
Proof. reflexivity. Qed.
Lemma emit_out ev s : out (snd (emit ev s)) = out s.
Proof. reflexivity. Qed.

Lemma rank0_log_trace m s :
  (forall s0, trace (snd (m s0)) = trace s0) ->
  trace (snd (on_rank0 env m s)) = trace s.
Proof. intros H. unfold on_rank0. case_match; [apply H | reflexivity]. Qed.

Lemma rank0_log1 l s :
  exec_log (snd (on_rank0 env (write_log l) s)) = exec_log s ++ if_rank0 env [l].
Proof. unfold on_rank0, if_rank0. case_match; cbn; rewrite ?app_nil_r; reflexivity. Qed.

Lemma rank0_log2 l1 l2 s :
  exec_log (snd (on_rank0 env (write_log l1 ;; write_log l2) s)) = exec_log s ++ if_rank0 env [l1; l2].
Proof. unfold on_rank0, if_rank0, mbind, M_bind. case_match; cbn; rewrite ?app_nil_r, <- ?app_assoc; reflexivity. Qed.

Lemma rank0_out_log l s : out (snd (on_rank0 env (write_log l) s)) = out s.
Proof. unfold on_rank0. case_match; reflexivity. Qed.

Lemma rank0_out_log2 l1 l2 s :
  out (snd (on_rank0 env (write_log l1 ;; write_log l2) s)) = out s.
Proof. unfold on_rank0. case_match; reflexivity. Qed.

Lemma rank0_out1 o s : out (snd (on_rank0 env (write_out o) s)) = out s ++ if_rank0 env [o].
Proof. unfold on_rank0, if_rank0. case_match; cbn; rewrite ?app_nil_r; reflexivity. Qed.

Lemma rank0_log_out o s : exec_log (snd (on_rank0 env (write_out o) s)) = exec_log s.
Proof. unfold on_rank0. case_match; reflexivity. Qed.

End Exec.

(** One step of the symbolic execution: the head bind is replaced by its
    continuation applied to the state after the step. *)
Ltac exec_step :=
  first
    [ rewrite bind_petsc
    | rewrite bind_emit
    | rewrite bind_get_x
    | rewrite bind_on_rank0 by (intros; reflexivity)
    | rewrite bind_CHKERRQ ];
  cbv beta.

Ltac exec := unfold Solve_Linear_Systam; repeat exec_step; rewrite ?ret_eq.

(** Projections of the final state back to the initial one. *)
Ltac proj_simpl :=
  repeat first
    [ rewrite petsc_trace | rewrite emit_trace
    | rewrite rank0_log_trace by (intros; reflexivity)
    | rewrite petsc_log | rewrite emit_log | rewrite rank0_log1 | rewrite rank0_log2
    | rewrite rank0_log_out
    | rewrite petsc_out | rewrite emit_out | rewrite rank0_out1 | rewrite rank0_out_log
    | rewrite rank0_out_log2 ].

(** Symbolic execution of [Solve_Linear_Systam] when every PETSc call
    succeeds: the environment is taken apart first, so that its fields are
    variables and no projection blocks the reduction. *)
Ltac run_ok :=
  unfold Solve_Linear_Systam, on_rank0;
  cbn [all_ok comm_rank];
  lazy beta iota zeta delta [mbind M_bind mret M_ret skip petsc effect emit write_log write_out
    get_x CHKERRQ set_trace set_log set_out set_live set_spd set_cfg set_sol set_x set_is_from
    set_is_to set_scat all_ok
    comm_rank comm_size refn_cycle num_global_DOFs_on_this_rank num_global_DOFs_on_all_ranks
    num_local_DOFs_on_this_rank scatter_from scatter_to options rc ksp_solution ksp_reason ksp_iters
    trace exec_log out live mat_spd cfg sol x is_from is_to scat
    ksp_type ksp_rtol pc_type gamg_type gamg_nsmooths Z.eqb Pos.eqb fst snd].

(** Only a successful [KSPSolve] writes the solution vector. *)
Section SolVector.
Variable env : Env.





End SolVector.


(** ** The scatter *)

Section Scatter.

Lemma scatter_insert_length (v : list Q) (fs ts : list Z) (y : list Q) :
  length (scatter_insert v fs ts y) = length y.
Proof.
  revert ts y. induction fs as [|f fs IH]; intros [|t ts] y; cbn; try reflexivity.
  rewrite IH. apply length_insert.
Qed.

Lemma scatter_insert_other (v : list Q) (fs ts : list Z) (y : list Q) (k : nat) :
  Forall (fun t => Z.to_nat t <> k) ts ->
  scatter_insert v fs ts y !! k = y !! k.
Proof.
  revert ts y. induction fs as [|f fs IH]; intros [|t ts] y Hts; cbn; try reflexivity.
  inversion Hts as [|? ? Ht Hts']; subst.
  rewrite IH by assumption. apply list_lookup_insert_ne. congruence.
Qed.

Lemma scatter_insert_spec (v : list Q) (fs ts : list Z) (y : list Q) (i : nat) (f t : Z) :
  NoDup ts ->
  Forall (fun t => (0 <= t)%Z /\ Z.to_nat t < length y) ts ->
  Forall (fun f => (0 <= f)%Z /\ Z.to_nat f < length v) fs ->
  fs !! i = Some f -> ts !! i = Some t ->
  scatter_insert v fs ts y !! Z.to_nat t = v !! Z.to_nat f.
Proof.
  revert ts y i. induction fs as [|f0 fs IH]; intros [|t0 ts] y i Hnd Hts Hfs Hf Ht;
    cbn in Hf, Ht; try discriminate; cbn.
  inversion Hnd as [|? ? Hnotin Hnd']; subst.
  inversion Hts as [|? ? [Ht0 Hlt0] Hts']; subst.
  inversion Hfs as [|? ? [Hf0 Hlf0] Hfs']; subst.
  destruct i as [|i]; cbn in Hf, Ht.
  - injection Hf as <-. injection Ht as <-.
    rewrite scatter_insert_other.
    + rewrite list_lookup_insert_eq by assumption.
      destruct (lookup_lt_is_Some_2 v (Z.to_nat f0) Hlf0) as [w Hw].
      rewrite Hw. reflexivity.
    + rewrite Forall_forall. intros t' Hin Heq.
      apply Hnotin. rewrite Forall_forall in Hts'.
      destruct (Hts' t' Hin) as [Ht' _].
      assert (t' = t0) by lia. subst. exact Hin.
  - apply (IH ts _ i); try assumption.
    eapply Forall_impl; [exact Hts'|]. intros t' [? ?]. rewrite length_insert. lia.
Qed.

End Scatter.

(** ** [Setup_System] *)

Lemma setup_out (env : Env) (s : St) (h : Z) (H : (0 <= comm_rank env < comm_size env)%Z) :
  out (snd (Setup_System env h s)) = out s.
Proof.
  assert (E : (comm_rank env =? comm_size env)%Z = false) by (apply Z.eqb_neq; lia).
  unfold Setup_System, on_rank0, mbind, M_bind, skip, mret, M_ret, emit, write_log.
  rewrite E. destruct (comm_rank env =? 0)%Z; reflexivity.
Qed.

Lemma setup_log (env : Env) (s : St) (h : Z) (H : comm_rank env <> 0%Z) :
  exec_log (snd (Setup_System env h s)) = exec_log s.
Proof.
  assert (E : (comm_rank env =? 0)%Z = false) by (apply Z.eqb_neq; lia).
  unfold Setup_System, on_rank0, mbind, M_bind, skip, mret, M_ret, emit, write_log.
  rewrite E. destruct (comm_rank env =? comm_size env)%Z; reflexivity.
Qed.

(** ** The loops of [main] *)

Lemma zrange_cons (a b : Z) : (a < b)%Z -> zrange a b = a :: zrange (a + 1) b.
Proof.
  intros H. unfold zrange.
  replace (Z.to_nat (b - a)) with (S (Z.to_nat (b - (a + 1)))) by lia.
  cbn [seq map]. rewrite Z.add_0_r. f_equal.
  rewrite <- seq_shift, map_map. apply map_ext. intros k. lia.
Qed.

Lemma zrange_nil (a b : Z) : (b <= a)%Z -> zrange a b = [].
Proof. intros H. unfold zrange. replace (Z.to_nat (b - a)) with 0 by lia. reflexivity. Qed.

Lemma for_loop_range (fuel : nat) (u hi : Z) (body : Z -> list Main.MainEv) :
  fuel = Z.to_nat (hi - u) -> Main.for_loop fuel u hi body = flat_map body (zrange u hi).
Proof.
  revert u. induction fuel as [|f IH]; intros u Hf; cbn.
  - rewrite zrange_nil by lia. reflexivity.
  - assert (Hlt : (u < hi)%Z) by lia.
    rewrite (proj2 (Z.ltb_lt _ _) Hlt), zrange_cons by assumption. cbn.
    rewrite IH by lia. reflexivity.
Qed.

Lemma to_unsigned_id (z : Z) : (0 <= z < 2 ^ 32)%Z -> Main.to_unsigned z = z.
Proof. intros H. unfold Main.to_unsigned. apply Z.mod_small. exact H. Qed.

(** ** Options of [main] *)

Lemma substring_prefix_length (n : nat) (s : string) :
  String.length (substring 0 n s) = Nat.min n (String.length s).
Proof.
  revert n. induction s as [|c s IH]; intros [|n]; cbn; try reflexivity.
  rewrite IH. reflexivity.
Qed.

Lemma substring_prefix_all (n : nat) (s : string) :
  String.length s <= n -> substring 0 n s = s.
Proof.
  revert n. induction s as [|c s IH]; intros [|n] H; cbn in *; try reflexivity; try lia.
  rewrite IH by lia. reflexivity.
Qed.

(** The 99 characters [PetscOptionsGetString] keeps of [s] equal a
    shorter string only if [s] is that string. *)
Lemma substring_99_short (s t : string) :
  String.length t < 99 -> substring 0 99 s = t -> s = t.
Proof.
  intros Ht Heq.
  assert (Hl := substring_prefix_length 99 s). rewrite Heq in Hl.
  destruct (decide (String.length s <= 99)) as [Hs|Hs].
  - rewrite substring_prefix_all in Heq by exact Hs. exact Heq.
  - lia.
Qed.

Lemma opt_lookup_skip (db : OptDB) (k k' : string) (v : OptVal) :
  k <> k' -> opt_lookup ((k', v) :: db) k = opt_lookup db k.
Proof. intros H. cbn. destruct (String.eqb_spec k k'); [contradiction | reflexivity]. Qed.

Lemma main_out_eq (rank : Z) (db : OptDB) (p_1 p_2 h_1 h_2 : Z) :
  Main.main_out (Main.main_model rank db p_1 p_2 h_1 h_2) =
  (if (rank =? 0)%Z then [OutHelp] else []) ++ snd (Main.face_basis_check rank db 1).
Proof.
  unfold Main.main_model.
  destruct (Main.PetscOptionsGetInt db "-p_0" p_1), (Main.PetscOptionsGetInt db "-p_n" p_2),
    (Main.PetscOptionsGetInt db "-h_0" h_1), (Main.PetscOptionsGetInt db "-h_n" h_2),
    (Main.PetscOptionsGetInt db "-amr" 0), (Main.face_basis_check rank db 1).
  reflexivity.
Qed.

Lemma main_trace_eq (rank : Z) (db : OptDB) (p_1 p_2 h_1 h_2 : Z) :
  Main.main_trace (Main.main_model rank db p_1 p_2 h_1 h_2) =
  Main.outer_loop (fst (Main.PetscOptionsGetInt db "-p_0" p_1))
    (fst (Main.PetscOptionsGetInt db "-p_n" p_2)) (fst (Main.PetscOptionsGetInt db "-h_0" h_1))
    (fst (Main.PetscOptionsGetInt db "-h_n" h_2)) (fst (Main.PetscOptionsGetInt db "-amr" 0)).
Proof.
  unfold Main.main_model.
  destruct (Main.PetscOptionsGetInt db "-p_0" p_1), (Main.PetscOptionsGetInt db "-p_n" p_2),
    (Main.PetscOptionsGetInt db "-h_0" h_1), (Main.PetscOptionsGetInt db "-h_n" h_2),
    (Main.PetscOptionsGetInt db "-amr" 0), (Main.face_basis_check rank db 1).
  reflexivity.
Qed.

(** * Properties of the program *)

(** Claim C1: when the PETSc calls succeed and the index pair is a valid
    scatter (both index lists of length [num_local_DOFs_on_this_rank], the
    targets distinct and in range, the sources in range of the solution),
    the array passed to [Calculate_Internal_Unknowns] has length
    [num_local_DOFs_on_this_rank] and holds
    [local[scatter_to[i]] = solution_vec[scatter_from[i]]] for every [i]. *)
Theorem solve_scatter_local_array (env : Env) (s : St) :
  let n := num_local_DOFs_on_this_rank env in
  length (scatter_from env) = Z.to_nat n ->
  length (scatter_to env) = Z.to_nat n ->
  NoDup (scatter_to env) ->
  Forall (fun t => 0 <= t < n)%Z (scatter_to env) ->
  Forall (fun f => (0 <= f)%Z /\ Z.to_nat f < length (ksp_solution env)) (scatter_from env) ->
  exists local,
    trace (snd (Solve_Linear_Systam (all_ok env) s)) = trace s ++ solve_events env local /\
    length local = Z.to_nat n /\
    forall i f t, scatter_from env !! i = Some f -> scatter_to env !! i = Some t ->
      local !! Z.to_nat t = ksp_solution env !! Z.to_nat f.
Proof.
  intros n Hlf Hlt Hnd Hto Hfrom. subst n.
  destruct env as [rank size cyc ng nga nl sf st db rcf ksol kr ki].
  cbn [num_local_DOFs_on_this_rank scatter_from scatter_to ksp_solution] in *.
  unfold Solve_Linear_Systam, on_rank0; cbn [all_ok comm_rank].
  destruct (rank =? 0)%Z; run_ok;
  (eexists; split; [unfold solve_events; cbn; rewrite <- !app_assoc; reflexivity|]);
  rewrite !take_ge by lia; split.
  all: try (rewrite scatter_insert_length, repeat_length; reflexivity).
  all: intros i f t Hf Ht; apply (scatter_insert_spec _ _ _ _ i); try assumption.
  all: eapply Forall_impl; [exact Hto|]; intros t' [? ?]; rewrite repeat_length; lia.
Qed.

Lemma solve_scatter_local_array_witness :
  let e := ex_env 0 [] rc_all_ok in
  length (scatter_from e) = 2 /\ length (scatter_to e) = 2 /\ NoDup (scatter_to e) /\
  exists local,
    trace (snd (Solve_Linear_Systam (all_ok e) st0)) = solve_events e local /\
    length local = 2 /\
    forall i f t, scatter_from e !! i = Some f -> scatter_to e !! i = Some t ->
      local !! Z.to_nat t = ksp_solution e !! Z.to_nat f.
Proof.
  cbn zeta.
  assert (Hnd : NoDup (scatter_to (ex_env 0 [] rc_all_ok))).
  { apply (bool_decide_unpack _). vm_compute. exact I. }
  split; [reflexivity|]. split; [reflexivity|]. split; [exact Hnd|].
  apply (solve_scatter_local_array (ex_env 0 [] rc_all_ok) st0); cbn.
  - reflexivity.
  - reflexivity.
  - exact Hnd.
  - repeat constructor; lia.
  - repeat constructor; lia.
Defined.

(** Claim C2: the preconditioner cannot be chosen at run time. Whatever the
    options, a run whose PETSc calls succeed ends with a GAMG
    preconditioner, because [PCSetType(pc, PCGAMG)] follows
    [PCSetFromOptions]; with [-ksp_type gmres -pc_type hypre] the solver
    type follows the option while the preconditioner stays GAMG. *)
Theorem solve_pc_type_not_overridable :
  (forall env s, pc_type (cfg (snd (Solve_Linear_Systam (all_ok env) s))) = Some PCGAMG) /\
  (let e := ex_env 0 [("-ksp_type", OStr "gmres"); ("-pc_type", OStr "hypre")]%string rc_all_ok in
   opt_string (options e) "-pc_type" = Some "hypre"%string /\
   ksp_type (cfg (snd (Solve_Linear_Systam e st0))) = Some "gmres"%string /\
   pc_type (cfg (snd (Solve_Linear_Systam e st0))) = Some "gamg"%string).
Proof.
  split.
  - intros env s.
    destruct env as [rank size cyc ng nga nl sf st db rcf ksol kr ki].
    unfold Solve_Linear_Systam, on_rank0; cbn [all_ok comm_rank].
    destruct (rank =? 0)%Z; run_ok; reflexivity.
  - vm_compute. split; [reflexivity | split; reflexivity].
Qed.






(** Claim C5: whatever stopping reason and iteration count the solver
    reports, once the assembly has succeeded [Solve_Linear_Systam] returns 0
    after the full sequence of calls (scatter and post-solve included), and
    rank 0 logs the reason and the iteration count. *)
Theorem solve_any_reason_proceeds (env : Env) (s : St)
  (Hb : rc env MatAssemblyBegin = 0%Z) (He : rc env MatAssemblyEnd = 0%Z) :
  fst (Solve_Linear_Systam env s) = Ok 0%Z /\
  (exists a, trace (snd (Solve_Linear_Systam env s)) = trace s ++ solve_events env a) /\
  exec_log (snd (Solve_Linear_Systam env s)) =
    exec_log s ++ if_rank0 env (solve_log (ksp_reason env) (ksp_iters env)).
Proof.
  exec. rewrite Hb, He. cbn [Z.eqb fst snd]. split; [reflexivity|split].
  - eexists. proj_simpl. unfold solve_events. cbn [map app]. rewrite <- !app_assoc. reflexivity.
  - proj_simpl. unfold if_rank0, solve_log.
    case_match; cbn; rewrite <- ?app_assoc, ?app_nil_r; reflexivity.
Qed.

Lemma solve_any_reason_proceeds_witness :
  let e := ex_env 0 [] rc_all_ok in
  rc e MatAssemblyBegin = 0%Z /\ rc e MatAssemblyEnd = 0%Z /\ (ksp_reason e < 0)%Z /\
  fst (Solve_Linear_Systam e st0) = Ok 0%Z /\
  (exists a, trace (snd (Solve_Linear_Systam e st0)) = trace st0 ++ solve_events e a) /\
  exec_log (snd (Solve_Linear_Systam e st0)) =
    exec_log st0 ++ if_rank0 e (solve_log (ksp_reason e) (ksp_iters e)).
Proof.
  cbn zeta. split; [reflexivity|]. split; [reflexivity|]. split; [cbn; lia|].
  apply (solve_any_reason_proceeds (ex_env 0 [] rc_all_ok) st0); reflexivity.
Defined.

(** Claim C6: when [MatAssemblyBegin] fails, [Solve_Linear_Systam] returns
    at once and the matrix and the three vectors are never destroyed. *)
Lemma solve_assembly_failure_leaks_objects :
  let e := ex_env 0 [] rc_assembly_fails in
  fst (Solve_Linear_Systam e st0) = Ret 73%Z /\
  Forall (fun o => In o (live (snd (Solve_Linear_Systam e st0)))) system_objects.
Proof. vm_compute. split; [reflexivity|]. repeat constructor; cbn; tauto. Qed.

(** Claim C7: for bounds that are non-negative [int]s, the loops of [main]
    run over the degrees of [[p_1, p_2)]; each degree constructs one solver
    and then, for each level of [[h_1, h_2)] in increasing order, runs
    [Setup_System], [Solve_Linear_Systam] and the visualizer in that order. *)
Theorem outer_loop_half_open_ranges (p_1 p_2 h_1 h_2 Adaptive : Z)
  (Hp1 : (0 <= p_1 < 2 ^ 31)%Z) (Hp2 : (0 <= p_2 < 2 ^ 31)%Z)
  (Hh1 : (0 <= h_1 < 2 ^ 31)%Z) (Hh2 : (0 <= h_2 < 2 ^ 31)%Z) :
  Main.outer_loop p_1 p_2 h_1 h_2 Adaptive =
  flat_map (fun p1 => Main.MConstruct p1 Adaptive ::
                      flat_map (fun h1 => [Main.MSetup h1; Main.MSolve; Main.MVisualize])
                               (zrange h_1 h_2))
           (zrange p_1 p_2).
Proof.
  unfold Main.outer_loop, Main.for_range.
  rewrite !to_unsigned_id by lia.
  rewrite for_loop_range by reflexivity. apply flat_map_ext. intros p1.
  rewrite for_loop_range by reflexivity. reflexivity.
Qed.

Lemma outer_loop_half_open_ranges_witness :
  (0 <= 1 < 2 ^ 31)%Z /\ (0 <= 3 < 2 ^ 31)%Z /\ (0 <= 2 < 2 ^ 31)%Z /\ (0 <= 4 < 2 ^ 31)%Z /\
  Main.outer_loop 1 3 2 4 0 =
  [Main.MConstruct 1 0; Main.MSetup 2; Main.MSolve; Main.MVisualize;
   Main.MSetup 3; Main.MSolve; Main.MVisualize;
   Main.MConstruct 2 0; Main.MSetup 2; Main.MSolve; Main.MVisualize;
   Main.MSetup 3; Main.MSolve; Main.MVisualize].
Proof.
  split; [lia|]. split; [lia|]. split; [lia|]. split; [lia|].
  rewrite (outer_loop_half_open_ranges 1 3 2 4 0) by lia. reflexivity.
Defined.

(** Claim C8: on a rank other than 0, [Solve_Linear_Systam] and
    [Setup_System] write nothing to the execution-time log or to the
    console, and [OutLogger] writes nothing. *)
Theorem nonzero_rank_silent (env : Env) (s : St) (Hr : comm_rank env <> 0%Z)
  (Hsz : (0 <= comm_rank env < comm_size env)%Z) :
  exec_log (snd (Solve_Linear_Systam env s)) = exec_log s /\
  out (snd (Solve_Linear_Systam env s)) = out s /\
  (forall h, exec_log (snd (Setup_System env h s)) = exec_log s /\
             out (snd (Setup_System env h s)) = out s) /\
  (forall log eol, OutLogger (comm_rank env) log eol = []).
Proof.
  assert (E : (comm_rank env =? 0)%Z = false) by (apply Z.eqb_neq; lia).
  split; [|split; [|split]].
  - exec. repeat case_match; cbn [fst snd]; proj_simpl; unfold if_rank0; rewrite ?E; cbn;
      rewrite ?app_nil_r; reflexivity.
  - exec. repeat case_match; cbn [fst snd]; proj_simpl; unfold if_rank0; rewrite ?E; cbn;
      rewrite ?app_nil_r; reflexivity.
  - intros h. split; [apply setup_log | apply setup_out]; assumption.
  - intros log eol. unfold OutLogger. rewrite E. reflexivity.
Qed.

Lemma nonzero_rank_silent_witness :
  let e := ex_env 1 [] rc_all_ok in
  comm_rank e <> 0%Z /\ (0 <= comm_rank e < comm_size e)%Z /\
  exec_log (snd (Solve_Linear_Systam e st0)) = [] /\
  out (snd (Solve_Linear_Systam e st0)) = [] /\
  (forall h, exec_log (snd (Setup_System e h st0)) = [] /\
             out (snd (Setup_System e h st0)) = []) /\
  (forall log eol, OutLogger (comm_rank e) log eol = []).
Proof.
  cbn zeta. split; [cbn; lia|]. split; [cbn; lia|].
  apply (nonzero_rank_silent (ex_env 1 [] rc_all_ok) st0); cbn; lia.
Defined.

(** Claim C9: a [-face_basis] value other than "legendre" and "lagrange"
    makes rank 0 print the error lines and no other rank print anything;
    the run then does what it does with the default "legendre". The two
    valid values print no error. *)
Theorem face_basis_invalid_reported (rank : Z) (db : OptDB) (v : string) (p_1 p_2 h_1 h_2 : Z)
  (Hl : v <> "legendre"%string) (Hg : v <> "lagrange"%string) :
  let r := Main.main_model rank (("-face_basis", OStr v)%string :: db) p_1 p_2 h_1 h_2 in
  Main.main_out r = (if (rank =? 0)%Z then [OutHelp; OutHey; OutThreads 1] else []) /\
  Main.main_trace r =
    Main.main_trace (Main.main_model rank (("-face_basis", OStr "legendre")%string :: db)
                       p_1 p_2 h_1 h_2) /\
  (forall w, w = "legendre"%string \/ w = "lagrange"%string ->
     Main.main_out (Main.main_model rank (("-face_basis", OStr w)%string :: db) p_1 p_2 h_1 h_2) =
     if (rank =? 0)%Z then [OutHelp] else []).
Proof.
  cbn zeta. split; [|split].
  - rewrite main_out_eq.
    unfold Main.face_basis_check, Main.PetscOptionsGetString. cbn -[substring].
    destruct (String.eqb_spec (substring 0 99 v) "lagrange") as [E|_].
    { apply substring_99_short in E; [contradiction | cbn; lia]. }
    destruct (String.eqb_spec (substring 0 99 v) "legendre") as [E|_].
    { apply substring_99_short in E; [contradiction | cbn; lia]. }
    destruct (rank =? 0)%Z; reflexivity.
  - rewrite !main_trace_eq. unfold Main.PetscOptionsGetInt, opt_int.
    rewrite !opt_lookup_skip by discriminate. reflexivity.
  - intros w [-> | ->]; rewrite main_out_eq; cbn; destruct (rank =? 0)%Z; reflexivity.
Qed.

Lemma face_basis_invalid_reported_witness :
  "hermite"%string <> "legendre"%string /\ "hermite"%string <> "lagrange"%string /\
  Main.main_out (Main.main_model 0 [("-face_basis", OStr "hermite")]%string 1 2 1 2) =
    [OutHelp; OutHey; OutThreads 1] /\
  Main.main_out (Main.main_model 1 [("-face_basis", OStr "hermite")]%string 1 2 1 2) = [] /\
  Main.main_trace (Main.main_model 0 [("-face_basis", OStr "hermite")]%string 1 2 1 2) =
  Main.main_trace (Main.main_model 0 [("-face_basis", OStr "legendre")]%string 1 2 1 2).
Proof.
  split; [discriminate|]. split; [discriminate|].
  destruct (face_basis_invalid_reported 0 [] "hermite" 1 2 1 2 ltac:(discriminate)
              ltac:(discriminate)) as [H0 [Ht _]].
  destruct (face_basis_invalid_reported 1 [] "hermite" 1 2 1 2 ltac:(discriminate)
              ltac:(discriminate)) as [H1 _].
  split; [exact H0|]. split; [exact H1|]. exact Ht.
Defined.

(** Claim C10: when ranks are numbered [0 <= comm_rank < comm_size], the
    refinement messages of [Setup_System], guarded by
    [comm_rank == comm_size], are printed on no rank: [Setup_System]
    prints nothing to the console. *)
Theorem setup_refinement_messages_never_printed (env : Env) (s : St) (h : Z)
  (H : (0 <= comm_rank env < comm_size env)%Z) :
  out (snd (Setup_System env h s)) = out s.
Proof. apply setup_out. exact H. Qed.

Lemma setup_refinement_messages_never_printed_witness :
  let e := ex_env 0 [] rc_all_ok in
  (0 <= comm_rank e < comm_size e)%Z /\ out (snd (Setup_System e 3 st0)) = [].
Proof.
  cbn zeta. split; [cbn; lia|].
  apply (setup_refinement_messages_never_printed (ex_env 0 [] rc_all_ok) st0 3); cbn; lia.
Defined.

(** * Further properties of the code *)

(** ** Helper lemmas for [Tokenize] *)

Section Tokenizer.
Variable d : list Ascii.ascii.

Lemma runs_delims_app (a r : list Ascii.ascii) :
  Forall (fun c => in_delims c d = true) a -> nondelim_runs d (a ++ r) = nondelim_runs d r.
Proof. induction 1 as [|c a Hc _ IH]; [reflexivity|]. cbn. rewrite Hc. exact IH. Qed.

Lemma runs_word_app (w r : list Ascii.ascii) :
  w <> [] -> Forall (fun c => in_delims c d = false) w ->
  (r = [] \/ exists c r', r = c :: r' /\ in_delims c d = true) ->
  nondelim_runs d (w ++ r) = w :: nondelim_runs d r.
Proof.
  intros Hne Hw Hr. induction Hw as [|c w Hc Hw IH]; [congruence|].
  destruct w as [|c1 w].
  - cbn. rewrite Hc. destruct Hr as [->|(c2 & r' & -> & Hc2)]; [reflexivity|].
    rewrite Hc2. reflexivity.
  - inversion Hw as [|? ? Hc1 _]; subst.
    assert (E : nondelim_runs d (c :: ((c1 :: w) ++ r)) =
                match nondelim_runs d ((c1 :: w) ++ r) with
                | w0 :: ws => (c :: w0) :: ws | [] => [[c]] end)
      by (cbn; rewrite Hc, Hc1; reflexivity).
    change ((c :: c1 :: w) ++ r) with (c :: ((c1 :: w) ++ r)).
    rewrite E, IH by discriminate. reflexivity.
Qed.

Lemma find_from_cases (p : Ascii.ascii -> bool) (l : list Ascii.ascii) (i : Z) :
  (find_from p l i = npos /\ Forall (fun c => p c = false) l) \/
  (exists k c, find_from p l i = (i + Z.of_nat k)%Z /\ l !! k = Some c /\ p c = true /\
               Forall (fun c => p c = false) (take k l)).
Proof.
  revert i. induction l as [|c l IH]; intros i; cbn.
  - left. split; [reflexivity | constructor].
  - destruct (p c) eqn:Hc.
    + right. exists 0, c. rewrite Z.add_0_r. repeat split; [assumption | constructor].
    + destruct (IH (i + 1)%Z) as [[H1 H2]|(k & c' & H1 & H2 & H3 & H4)].
      * left. split; [assumption | constructor; assumption].
      * right. exists (S k), c'. rewrite H1. repeat split; [lia | assumption | assumption |].
        cbn. constructor; assumption.
Qed.


Lemma runs_all_delims (a : list Ascii.ascii) :
  Forall (fun c => in_delims c d = true) a -> nondelim_runs d a = [].
Proof. intros H. rewrite <- (app_nil_r a), runs_delims_app by exact H. reflexivity. Qed.

Lemma find_first_not_of_ge (s : list Ascii.ascii) (p : Z) :
  (Z.of_nat (length s) <= p)%Z -> find_first_not_of s d p = npos.
Proof. intros H. unfold find_first_not_of. rewrite (proj2 (Z.ltb_ge _ _) H). reflexivity. Qed.

Lemma find_first_of_ge (s : list Ascii.ascii) (p : Z) :
  (Z.of_nat (length s) <= p)%Z -> find_first_of s d p = npos.
Proof. intros H. unfold find_first_of. rewrite (proj2 (Z.ltb_ge _ _) H). reflexivity. Qed.

Lemma find_first_not_of_cases (s : list Ascii.ascii) (i : nat) :
  i < length s ->
  (find_first_not_of s d (Z.of_nat i) = npos /\
   Forall (fun c => in_delims c d = true) (drop i s)) \/
  (exists k c, find_first_not_of s d (Z.of_nat i) = Z.of_nat (i + k) /\
   s !! (i + k) = Some c /\ in_delims c d = false /\
   Forall (fun c => in_delims c d = true) (take k (drop i s))).
Proof.
  intros Hi. unfold find_first_not_of.
  rewrite (proj2 (Z.ltb_lt _ _)) by lia. rewrite Nat2Z.id.
  destruct (find_from_cases (fun c => negb (in_delims c d)) (drop i s) (Z.of_nat i))
    as [[E H]|(k & c & E & Hk & Hc & H)]; rewrite E.
  - left. split; [reflexivity|]. eapply Forall_impl; [exact H|].
    intros c Hc. apply negb_false_iff in Hc. exact Hc.
  - right. exists k, c. rewrite Nat2Z.inj_add, <- lookup_drop. split; [reflexivity|].
    split; [exact Hk|]. split; [apply negb_true_iff in Hc; exact Hc|].
    eapply Forall_impl; [exact H|]. intros c' Hc'. apply negb_false_iff in Hc'. exact Hc'.
Qed.

Lemma find_first_of_cases (s : list Ascii.ascii) (i : nat) :
  i < length s ->
  (find_first_of s d (Z.of_nat i) = npos /\
   Forall (fun c => in_delims c d = false) (drop i s)) \/
  (exists k c, find_first_of s d (Z.of_nat i) = Z.of_nat (i + k) /\
   s !! (i + k) = Some c /\ in_delims c d = true /\
   Forall (fun c => in_delims c d = false) (take k (drop i s))).
Proof.
  intros Hi. unfold find_first_of.
  rewrite (proj2 (Z.ltb_lt _ _)) by lia. rewrite Nat2Z.id.
  destruct (find_from_cases (fun c => in_delims c d) (drop i s) (Z.of_nat i))
    as [[E H]|(k & c & E & Hk & Hc & H)]; rewrite E.
  - left. split; [reflexivity | exact H].
  - right. exists k, c. rewrite Nat2Z.inj_add, <- lookup_drop. auto.
Qed.

Lemma Tokenize_loop_runs (s : list Ascii.ascii) (Hn : (Z.of_nat (length s) < npos)%Z) :
  forall fuel i toks, i <= length s -> length s - i < fuel ->
  Tokenize_loop fuel s d (find_first_not_of s d (Z.of_nat i))
    (find_first_of s d (find_first_not_of s d (Z.of_nat i))) toks =
  Some (toks ++ nondelim_runs d (drop i s)).
Proof.
  induction fuel as [|f IH]; intros i toks Hi Hf; [lia|].
  destruct (decide (i < length s)) as [Hlt|Hge].
  2:{ rewrite find_first_not_of_ge by lia. rewrite find_first_of_ge by (unfold npos in *; lia).
      cbn [Tokenize_loop]. rewrite Z.eqb_refl. cbn.
      rewrite drop_ge by lia. rewrite app_nil_r. reflexivity. }
  destruct (find_first_not_of_cases s i Hlt) as [[E Hall]|(k & c & E & Hc & HPc & Hpre)];
    rewrite E.
  - rewrite find_first_of_ge by (unfold npos in *; lia).
    cbn [Tokenize_loop]. rewrite Z.eqb_refl. cbn.
    rewrite runs_all_delims by exact Hall. rewrite app_nil_r. reflexivity.
  - assert (HJ : i + k < length s) by (apply lookup_lt_Some in Hc; exact Hc).
    assert (Hsplit : drop i s = take k (drop i s) ++ drop (i + k) s)
      by (rewrite <- drop_drop, take_drop; reflexivity).
    assert (Hc0 : drop (i + k) s !! 0 = Some c) by (rewrite lookup_drop, Nat.add_0_r; exact Hc).
    assert (HJn : (npos =? Z.of_nat (i + k))%Z = false) by (apply Z.eqb_neq; lia).
    destruct (find_first_of_cases s (i + k) HJ) as [[E2 Hw]|(m & c' & E2 & Hc' & HPc' & Hw)];
      rewrite E2.
    + cbn [Tokenize_loop]. rewrite Z.eqb_refl, HJn. cbn [negb orb].
      unfold substr. rewrite (proj2 (Z.ltb_ge _ _)) by lia.
      unfold size_t_sub. rewrite (Z.mod_small (npos - Z.of_nat (i + k))) by (unfold npos in *; lia).
      rewrite Z.min_r by lia.
      rewrite take_ge by (rewrite length_drop; lia).
      rewrite find_first_not_of_ge by (unfold npos in *; lia).
      rewrite find_first_of_ge by (unfold npos in *; lia).
      destruct f as [|f]; [lia|]. cbn [Tokenize_loop]. rewrite Z.eqb_refl. cbn [negb orb].
      rewrite Hsplit, runs_delims_app by exact Hpre.
      assert (Hne : drop (i + k) s <> []) by (intros Hnil; rewrite Hnil in Hc0; discriminate).
      pose proof (runs_word_app (drop (i + k) s) [] Hne Hw (or_introl eq_refl)) as W.
      rewrite app_nil_r in W. rewrite W, Nat2Z.id. reflexivity.
    + assert (Hm : m <> 0).
      { intros ->. rewrite Nat.add_0_r in Hc'. congruence. }
      assert (HK : i + k + m < length s) by (apply lookup_lt_Some in Hc'; exact Hc').
      assert (HKn : (npos =? Z.of_nat (i + k + m))%Z = false) by (apply Z.eqb_neq; lia).
      cbn [Tokenize_loop]. rewrite HKn. cbn [negb orb].
      unfold substr. rewrite (proj2 (Z.ltb_ge _ _)) by lia.
      unfold size_t_sub.
      rewrite (Z.mod_small (Z.of_nat (i + k + m) - Z.of_nat (i + k))) by (unfold npos in *; lia).
      rewrite Z.min_l by lia.
      replace (Z.to_nat (Z.of_nat (i + k + m) - Z.of_nat (i + k))) with m by lia.
      rewrite Nat2Z.id.
      rewrite IH by lia. f_equal. rewrite <- app_assoc. f_equal.
      rewrite Hsplit, runs_delims_app by exact Hpre.
      assert (Hsplit2 : drop (i + k) s = take m (drop (i + k) s) ++ drop (i + k + m) s)
        by (rewrite <- (drop_drop s m (i + k)), take_drop; reflexivity).
      transitivity (nondelim_runs d (take m (drop (i + k) s) ++ drop (i + k + m) s));
        [|rewrite <- Hsplit2; reflexivity].
      rewrite runs_word_app.
      * reflexivity.
      * intros Hnil. apply (f_equal length) in Hnil. rewrite length_take, length_drop in Hnil.
        cbn in Hnil. lia.
      * exact Hw.
      * right. exists c', (drop (S (i + k + m)) s). split; [|exact HPc'].
        rewrite (drop_S _ c') by exact Hc'. reflexivity.
Qed.

Lemma Tokenize_runs (s : list Ascii.ascii) (toks : list (list Ascii.ascii))
  (Hn : (Z.of_nat (length s) < npos)%Z) :
  Tokenize s toks d = Some (toks ++ nondelim_runs d s).
Proof.
  unfold Tokenize. change 0%Z with (Z.of_nat 0).
  rewrite Tokenize_loop_runs by (auto; lia). reflexivity.
Qed.


Lemma runs_clean (l : list Ascii.ascii) :
  Forall (fun w => w <> [] /\ Forall (fun c => in_delims c d = false) w) (nondelim_runs d l).
Proof.
  induction l as [|c l IH]; cbn; [constructor|].
  destruct (in_delims c d) eqn:Hc; [exact IH|].
  destruct l as [|c2 l].
  - repeat constructor; [discriminate | exact Hc].
  - destruct (in_delims c2 d) eqn:Hc2.
    + constructor; [split; [discriminate | repeat constructor; exact Hc] | exact IH].
    + destruct (nondelim_runs d (c2 :: l)) as [|w ws] eqn:Ew.
      * repeat constructor; [discriminate | exact Hc].
      * inversion IH as [|? ? [_ Hw] Hws]; subst.
        constructor; [split; [discriminate | constructor; assumption] | exact Hws].
Qed.

Lemma runs_concat (l : list Ascii.ascii) :
  concat (nondelim_runs d l) = List.filter (fun c => negb (in_delims c d)) l.
Proof.
  induction l as [|c l IH]; cbn; [reflexivity|].
  destruct (in_delims c d) eqn:Hc; cbn; [exact IH|].
  destruct l as [|c2 l]; [reflexivity|].
  destruct (in_delims c2 d) eqn:Hc2.
  - transitivity (c :: concat (nondelim_runs d (c2 :: l))); [reflexivity|]. rewrite IH. reflexivity.
  - destruct (nondelim_runs d (c2 :: l)) as [|w ws] eqn:Ew.
    + transitivity (c :: concat (@nil (list Ascii.ascii))); [reflexivity|].
      rewrite IH. reflexivity.
    + transitivity (c :: concat (w :: ws)); [reflexivity|]. rewrite IH. reflexivity.
Qed.

Lemma runs_join (c : Ascii.ascii) (ws : list (list Ascii.ascii)) :
  in_delims c d = true ->
  Forall (fun w => w <> [] /\ Forall (fun c => in_delims c d = false) w) ws ->
  nondelim_runs d (join_with c ws) = ws.
Proof.
  intros Hc Hws. induction Hws as [|w ws [Hne Hw] Hws IH]; [reflexivity|].
  destruct ws as [|w' ws].
  - cbn [join_with]. pose proof (runs_word_app w [] Hne Hw (or_introl eq_refl)) as W.
    rewrite app_nil_r in W. exact W.
  - change (join_with c (w :: w' :: ws)) with (w ++ c :: join_with c (w' :: ws)).
    rewrite runs_word_app by (auto; right; eauto).
    cbn [nondelim_runs]. rewrite Hc, IH. reflexivity.
Qed.

End Tokenizer.


Lemma main_face_basis_eq (rank : Z) (db : OptDB) (p_1 p_2 h_1 h_2 : Z) :
  Main.main_face_basis (Main.main_model rank db p_1 p_2 h_1 h_2) =
  fst (Main.face_basis_check rank db 1).
Proof.
  unfold Main.main_model.
  destruct (Main.PetscOptionsGetInt db "-p_0" p_1), (Main.PetscOptionsGetInt db "-p_n" p_2),
    (Main.PetscOptionsGetInt db "-h_0" h_1), (Main.PetscOptionsGetInt db "-h_n" h_2),
    (Main.PetscOptionsGetInt db "-amr" 0), (Main.face_basis_check rank db 1).
  reflexivity.
Qed.

Lemma to_unsigned_neg (z : Z) : (- 2 ^ 31 <= z < 0)%Z -> Main.to_unsigned z = (z + 2 ^ 32)%Z.
Proof.
  intros H. unfold Main.to_unsigned.
  rewrite <- (Z.mod_small (z + 2 ^ 32) (2 ^ 32)) by lia.
  rewrite Zplus_mod, Z_mod_same_full, Z.add_0_r, Zmod_mod. reflexivity.
Qed.

(** ** [Tokenize] *)

(** [Tokenize] never throws: it returns the tokens it was given followed by
    new tokens, each non-empty and free of delimiters, whose concatenation
    is [str_in] with its delimiter characters removed. *)
Theorem tokenize_appends_clean_tokens (s : list Ascii.ascii) (toks : list (list Ascii.ascii))
  (d : list Ascii.ascii) (Hn : (Z.of_nat (length s) < npos)%Z) :
  exists new, Tokenize s toks d = Some (toks ++ new) /\
    Forall (fun w => w <> [] /\ Forall (fun c => in_delims c d = false) w) new /\
    concat new = List.filter (fun c => negb (in_delims c d)) s.
Proof.
  exists (nondelim_runs d s). rewrite Tokenize_runs by exact Hn.
  split; [reflexivity|]. split; [apply runs_clean | apply runs_concat].
Qed.

Lemma tokenize_appends_clean_tokens_witness :
  let s := list_ascii_of_string "  ab c  " in
  (Z.of_nat (length s) < npos)%Z /\
  exists new, Tokenize s [] default_delimiters = Some ([] ++ new) /\
    Forall (fun w => w <> [] /\ Forall (fun c => in_delims c default_delimiters = false) w) new /\
    concat new = List.filter (fun c => negb (in_delims c default_delimiters)) s.
Proof.
  cbn zeta. split; [vm_compute; reflexivity|].
  apply tokenize_appends_clean_tokens. vm_compute. reflexivity.
Defined.

(** Joining non-empty, delimiter-free words with a delimiter character and
    tokenizing the result gives back exactly those words. *)
Theorem tokenize_join_roundtrip (ws toks : list (list Ascii.ascii)) (d : list Ascii.ascii)
  (c : Ascii.ascii) (Hc : in_delims c d = true)
  (Hws : Forall (fun w => w <> [] /\ Forall (fun c => in_delims c d = false) w) ws)
  (Hn : (Z.of_nat (length (join_with c ws)) < npos)%Z) :
  Tokenize (join_with c ws) toks d = Some (toks ++ ws).
Proof. rewrite Tokenize_runs by exact Hn. rewrite runs_join by assumption. reflexivity. Qed.

Lemma tokenize_join_roundtrip_witness :
  let ws := [list_ascii_of_string "ab"; list_ascii_of_string "c"] in
  let sp := Ascii.ascii_of_nat 32 in
  in_delims sp default_delimiters = true /\
  Forall (fun w => w <> [] /\ Forall (fun c => in_delims c default_delimiters = false) w) ws /\
  (Z.of_nat (length (join_with sp ws)) < npos)%Z /\
  Tokenize (join_with sp ws) [] default_delimiters = Some ([] ++ ws).
Proof.
  cbn zeta.
  assert (Hws : Forall (fun w => w <> [] /\
                  Forall (fun c => in_delims c default_delimiters = false) w)
                  [list_ascii_of_string "ab"; list_ascii_of_string "c"]).
  { repeat constructor; discriminate. }
  split; [reflexivity|]. split; [exact Hws|]. split; [vm_compute; reflexivity|].
  apply tokenize_join_roundtrip; [reflexivity | exact Hws | vm_compute; reflexivity].
Defined.

(** Joining the tokens of a string with a delimiter character and
    tokenizing again gives the same tokens. *)
Theorem tokenize_rejoin_stable (s : list Ascii.ascii) (d : list Ascii.ascii) (c : Ascii.ascii)
  (ws : list (list Ascii.ascii)) (Hc : in_delims c d = true)
  (Hn : (Z.of_nat (length s) < npos)%Z)
  (Hn' : (Z.of_nat (length (join_with c ws)) < npos)%Z)
  (Ht : Tokenize s [] d = Some ws) :
  Tokenize (join_with c ws) [] d = Some ws.
Proof.
  rewrite Tokenize_runs in Ht by exact Hn. injection Ht as <-.
  rewrite Tokenize_runs by exact Hn'. rewrite runs_join by (auto; apply runs_clean).
  reflexivity.
Qed.

Lemma tokenize_rejoin_stable_witness :
  let s := list_ascii_of_string "  ab   c " in
  let ws := [list_ascii_of_string "ab"; list_ascii_of_string "c"] in
  let sp := Ascii.ascii_of_nat 32 in
  Tokenize s [] default_delimiters = Some ws /\
  Tokenize (join_with sp ws) [] default_delimiters = Some ws.
Proof.
  cbn zeta. split; [vm_compute; reflexivity|].
  apply (tokenize_rejoin_stable (list_ascii_of_string "  ab   c ")); vm_compute; reflexivity.
Defined.

(** A string made only of delimiters (the empty string included) adds no
    token. *)
Theorem tokenize_only_delimiters (s : list Ascii.ascii) (toks : list (list Ascii.ascii))
  (d : list Ascii.ascii) (Hn : (Z.of_nat (length s) < npos)%Z)
  (Hs : Forall (fun c => in_delims c d = true) s) :
  Tokenize s toks d = Some toks.
Proof. rewrite Tokenize_runs, runs_all_delims by assumption. rewrite app_nil_r. reflexivity. Qed.

Lemma tokenize_only_delimiters_witness :
  let s := list_ascii_of_string "   " in
  let toks := [list_ascii_of_string "x"] in
  (Z.of_nat (length s) < npos)%Z /\
  Forall (fun c => in_delims c default_delimiters = true) s /\
  Tokenize s toks default_delimiters = Some toks.
Proof.
  cbn zeta. split; [vm_compute; reflexivity|]. split; [repeat constructor|].
  apply tokenize_only_delimiters; [vm_compute; reflexivity | repeat constructor].
Defined.

(** A non-empty string without delimiters (for instance with an empty
    delimiter string) is added as one token. *)
Theorem tokenize_no_delimiters (s : list Ascii.ascii) (toks : list (list Ascii.ascii))
  (d : list Ascii.ascii) (Hn : (Z.of_nat (length s) < npos)%Z) (Hne : s <> [])
  (Hs : Forall (fun c => in_delims c d = false) s) :
  Tokenize s toks d = Some (toks ++ [s]).
Proof.
  rewrite Tokenize_runs by exact Hn.
  pose proof (runs_word_app d s [] Hne Hs (or_introl eq_refl)) as W.
  rewrite app_nil_r in W. rewrite W. reflexivity.
Qed.

Lemma tokenize_no_delimiters_witness :
  let s := list_ascii_of_string "a b" in
  (Z.of_nat (length s) < npos)%Z /\ s <> [] /\ Forall (fun c => in_delims c [] = false) s /\
  Tokenize s [] [] = Some ([] ++ [s]).
Proof.
  cbn zeta. split; [vm_compute; reflexivity|]. split; [discriminate|].
  split; [repeat constructor|].
  apply tokenize_no_delimiters; [vm_compute; reflexivity | discriminate | repeat constructor].
Defined.

(** ** [Solve_Linear_Systam] *)

(** A call whose PETSc calls succeed destroys the matrix and the vectors
    it creates but never the KSP, the two index sets and the scatter: these
    four stay alive, added to the objects alive before the call. *)
Theorem solve_success_leaks_solver_objects (env : Env) (s : St) :
  live (snd (Solve_Linear_Systam (all_ok env) s)) =
  [OScatter; OTo; OFrom; OKSP] ++
  List.filter (fun o => bool_decide (o ∈ [OKSP; OFrom; OTo; OScatter])) (live s).
Proof.
  destruct env as [rank size cyc ng nga nl sf st db rcf ksol kr ki].
  destruct s as [tr lg ou lv spd cf so xx isf ist sc].
  unfold Solve_Linear_Systam, on_rank0; cbn [all_ok comm_rank].
  destruct (rank =? 0)%Z; run_ok; cbn [live];
  (change (OScatter :: OTo :: OFrom :: OX :: OKSP :: OExact :: OSol :: ORHS :: OMat :: lv)
     with ([OScatter; OTo; OFrom; OX; OKSP; OExact; OSol; ORHS; OMat] ++ lv);
   rewrite !filter_app; f_equal;
   induction lv as [|o lv IH]; [reflexivity|];
   destruct o; vm_compute in IH |- *; rewrite ?IH; reflexivity).
Qed.

(** When [MatAssemblyBegin] or [MatAssemblyEnd] fails, the call returns that
    code right after it: no later PETSc call (solve, scatter, destroy) and
    no post-solve is made, and rank 0 has logged "Entering solver" but no
    later line. *)
Theorem solve_assembly_failure_stops (env : Env) (s : St)
  (Hfail : rc env MatAssemblyBegin <> 0%Z \/ rc env MatAssemblyEnd <> 0%Z) :
  fst (Solve_Linear_Systam env s) =
    Ret (if (rc env MatAssemblyBegin =? 0)%Z then rc env MatAssemblyEnd
         else rc env MatAssemblyBegin) /\
  trace (snd (Solve_Linear_Systam env s)) =
    trace s ++ pre_assembly_events env ++
    map EvPetsc (if (rc env MatAssemblyBegin =? 0)%Z
                 then [MatAssemblyBegin; MatAssemblyEnd] else [MatAssemblyBegin]) /\
  exec_log (snd (Solve_Linear_Systam env s)) =
    exec_log s ++ if_rank0 env [LEnteringAssembly; LFinishedAssembly; LEnteringSolver] /\
  out (snd (Solve_Linear_Systam env s)) = out s.
Proof.
  exec.
  destruct (rc env MatAssemblyBegin =? 0)%Z eqn:Eb;
    [destruct (rc env MatAssemblyEnd =? 0)%Z eqn:Ee|].
  - exfalso. apply Z.eqb_eq in Eb, Ee. tauto.
  - cbn [fst snd]. split; [reflexivity|]. proj_simpl.
    unfold pre_assembly_events, if_rank0. cbn [map app].
    split; [rewrite <- !app_assoc; reflexivity|]. split; [|reflexivity].
    case_match; cbn; rewrite <- ?app_assoc, ?app_nil_r; reflexivity.
  - cbn [fst snd]. split; [reflexivity|]. proj_simpl.
    unfold pre_assembly_events, if_rank0. cbn [map app].
    split; [rewrite <- !app_assoc; reflexivity|]. split; [|reflexivity].
    case_match; cbn; rewrite <- ?app_assoc, ?app_nil_r; reflexivity.
Qed.

Lemma solve_assembly_failure_stops_witness :
  let e := ex_env 0 [] rc_assembly_fails in
  (rc e MatAssemblyBegin <> 0%Z \/ rc e MatAssemblyEnd <> 0%Z) /\
  fst (Solve_Linear_Systam e st0) = Ret 73%Z /\
  trace (snd (Solve_Linear_Systam e st0)) =
    trace st0 ++ pre_assembly_events e ++ map EvPetsc [MatAssemblyBegin] /\
  exec_log (snd (Solve_Linear_Systam e st0)) =
    exec_log st0 ++ if_rank0 e [LEnteringAssembly; LFinishedAssembly; LEnteringSolver] /\
  out (snd (Solve_Linear_Systam e st0)) = out st0.
Proof.
  cbn zeta. assert (Hf : rc (ex_env 0 [] rc_assembly_fails) MatAssemblyBegin <> 0%Z)
    by (cbn; discriminate).
  split; [left; exact Hf|].
  exact (solve_assembly_failure_stops (ex_env 0 [] rc_assembly_fails) st0 (or_introl Hf)).
Defined.

(** Only the codes of [MatAssemblyBegin] and [MatAssemblyEnd] can come out
    of [Solve_Linear_Systam]: it returns the first of them that is not 0,
    and 0 when both are, whatever the codes of its other calls. *)
Theorem solve_return_code (env : Env) (s : St) :
  fst (Solve_Linear_Systam env s) =
  if (rc env MatAssemblyBegin =? 0)%Z then
    if (rc env MatAssemblyEnd =? 0)%Z then Ok 0%Z else Ret (rc env MatAssemblyEnd)
  else Ret (rc env MatAssemblyBegin).
Proof. exec. repeat case_match; reflexivity. Qed.

(** ** [Setup_System] *)

(** [Setup_System h] refines the grid with level [h] and then counts the
    globals; rank 0 logs the "entering counter" and "exited counter" lines
    with its rank and cycle, the other ranks log nothing. *)
Theorem setup_system_events_and_log (env : Env) (s : St) (h : Z) :
  trace (snd (Setup_System env h s)) = trace s ++ [EvRefine_Grid h; EvCount_Globals] /\
  exec_log (snd (Setup_System env h s)) =
    exec_log s ++ if_rank0 env [LEnteringCounter (comm_rank env) (refn_cycle env);
                                LExitedCounter (comm_rank env) (refn_cycle env)].
Proof.
  unfold Setup_System, on_rank0, if_rank0, mbind, M_bind, skip, mret, M_ret, emit,
    write_log, write_out.
  destruct (comm_rank env =? comm_size env)%Z, (comm_rank env =? 0)%Z; cbn;
    rewrite <- ?app_assoc, ?app_nil_r; split; reflexivity.
Qed.

(** ** The loops of [main] *)

(** A negative starting degree becomes a huge unsigned value: with
    [p_1 < 0 <= p_2], [main] constructs no solver at all. *)
Theorem outer_loop_negative_p_start_empty (p_1 p_2 h_1 h_2 Adaptive : Z)
  (Hp1 : (- 2 ^ 31 <= p_1 < 0)%Z) (Hp2 : (0 <= p_2 < 2 ^ 31)%Z) :
  Main.outer_loop p_1 p_2 h_1 h_2 Adaptive = [].
Proof.
  unfold Main.outer_loop, Main.for_range.
  rewrite (to_unsigned_id p_2), (to_unsigned_neg p_1) by lia.
  replace (Z.to_nat (p_2 - (p_1 + 2 ^ 32))) with 0 by lia. reflexivity.
Qed.

Lemma outer_loop_negative_p_start_empty_witness :
  (- 2 ^ 31 <= -1 < 0)%Z /\ (0 <= 3 < 2 ^ 31)%Z /\ Main.outer_loop (-1) 3 2 4 0 = [].
Proof.
  split; [lia|]. split; [lia|].
  apply outer_loop_negative_p_start_empty; lia.
Defined.

(** With a negative starting level [h_1 < 0 <= h_2], [main] constructs
    one solver per degree of [[p_1, p_2)] but never runs [Setup_System],
    [Solve_Linear_Systam] or the visualizer. *)
Theorem outer_loop_negative_h_start_no_setup (p_1 p_2 h_1 h_2 Adaptive : Z)
  (Hp1 : (0 <= p_1 < 2 ^ 31)%Z) (Hp2 : (0 <= p_2 < 2 ^ 31)%Z)
  (Hh1 : (- 2 ^ 31 <= h_1 < 0)%Z) (Hh2 : (0 <= h_2 < 2 ^ 31)%Z) :
  Main.outer_loop p_1 p_2 h_1 h_2 Adaptive =
  map (fun p1 => Main.MConstruct p1 Adaptive) (zrange p_1 p_2).
Proof.
  unfold Main.outer_loop, Main.for_range.
  rewrite (to_unsigned_id p_1), (to_unsigned_id p_2), (to_unsigned_id h_2),
    (to_unsigned_neg h_1) by lia.
  replace (Z.to_nat (h_2 - (h_1 + 2 ^ 32))) with 0 by lia.
  rewrite for_loop_range by reflexivity. cbn [Main.for_loop].
  induction (zrange p_1 p_2) as [|p l IH]; [reflexivity|].
  cbn [flat_map map app]. rewrite IH. reflexivity.
Qed.

Lemma outer_loop_negative_h_start_no_setup_witness :
  (0 <= 1 < 2 ^ 31)%Z /\ (0 <= 3 < 2 ^ 31)%Z /\ (- 2 ^ 31 <= -1 < 0)%Z /\ (0 <= 2 < 2 ^ 31)%Z /\
  Main.outer_loop 1 3 (-1) 2 0 = [Main.MConstruct 1 0; Main.MConstruct 2 0].
Proof.
  split; [lia|]. split; [lia|]. split; [lia|]. split; [lia|].
  rewrite (outer_loop_negative_h_start_no_setup 1 3 (-1) 2 0) by lia. reflexivity.
Defined.

(** ** The [-face_basis] buffer of [main] *)

(** The buffer [face_basis_type] receives the first 99 characters of the
    [-face_basis] value (the whole value when it is no longer), and keeps
    "legendre" when the option is absent. *)
Theorem face_basis_buffer_truncated (rank : Z) (db : OptDB) (v : string) (p_1 p_2 h_1 h_2 : Z) :
  let b := Main.main_face_basis
             (Main.main_model rank (("-face_basis", OStr v)%string :: db) p_1 p_2 h_1 h_2) in
  String.length b = Nat.min 99 (String.length v) /\
  (String.length v <= 99 -> b = v) /\
  (opt_string db "-face_basis" = None ->
   Main.main_face_basis (Main.main_model rank db p_1 p_2 h_1 h_2) = "legendre"%string).
Proof.
  cbn zeta. rewrite !main_face_basis_eq.
  unfold Main.face_basis_check, Main.PetscOptionsGetString. cbn -[substring].
  split; [|split].
  - apply substring_prefix_length.
  - intros H. apply substring_prefix_all. exact H.
  - intros H. rewrite H. reflexivity.
Qed.
